(** * git-module: repository operations (repo.go)

  A shallow embedding of [repo.go].  Every function of the file is a
  computation in a small state-and-trace monad [M]: it threads a
  [World] (the operating system together with the object caches that
  [Repository] handles point to) and records the calls that leave the
  process, in order.  The Go standard library, the external tool and
  the files of the package that [repo.go] only calls into are kept
  behind the [Runtime] interface or modelled in their own modules. *)

From Stdlib Require Import ZArith Ascii String List.
From Stdlib.Strings Require Import Byte.
From stdpp Require Import base option list gmap strings.

Local Open Scope Z_scope.

(** ** Go values *)

(** Go's [error] interface, observed through its message.  A nil error
  is [None] in an [option error]. *)
Inductive error : Type :=
| errors_New (msg : string).

Global Instance error_eq_dec : EqDecision error.
Proof. solve_decision. Defined.

(** [time.Duration] is an [int64] count of nanoseconds; the file only
  compares it with zero and stores [-1]. *)
Definition Duration : Type := Z.

(** [os.FileMode]; [os.ModePerm] is [0777]. *)
Definition FileMode : Type := N.
Definition os_ModePerm : FileMode := 511%N.

(** A [[]byte]. *)
Definition bytes : Type := list byte.

(** A pointer into the store of object caches. *)
Definition loc : Type := nat.

(** ** Package [path] of the standard library

  [path.Dir] is a pure function on strings.  [path.Clean] is written
  on the list of slash-separated elements instead of Go's in-place
  buffer; the rules are those of its documentation. *)
Module path.

Definition slash : ascii := "/"%char.

Fixpoint has_slash (s : string) : bool :=
  match s with
  | EmptyString => false
  | String c s' => if Ascii.eqb c slash then true else has_slash s'
  end.

(** [strings.Split(s, "/")]. *)
Fixpoint elements (s : string) : list string :=
  match s with
  | EmptyString => [EmptyString]
  | String c s' =>
      if Ascii.eqb c slash then EmptyString :: elements s'
      else match elements s' with
           | e :: es => String c e :: es
           | [] => [String c EmptyString]
           end
  end.

(** One element of the path against the elements kept so far
    (innermost first). *)
Definition clean_step (rooted : bool) (out : list string) (e : string)
  : list string :=
  if String.eqb e "" then out
  else if String.eqb e "." then out
  else if String.eqb e ".." then
    match out with
    | top :: rest => if String.eqb top ".." then e :: out else rest
    | [] => if rooted then [] else [e]
    end
  else e :: out.

Definition IsAbs (p : string) : bool :=
  match p with
  | String c _ => Ascii.eqb c slash
  | EmptyString => false
  end.

Definition Clean (p : string) : string :=
  if String.eqb p "" then "."
  else
    let rooted := IsAbs p in
    let out := rev (fold_left (clean_step rooted) (elements p) []) in
    if rooted then String slash (String.concat "/" out)
    else match out with
         | [] => "."
         | _ => String.concat "/" out
         end.

(** The part of [p] up to and including its last slash: the first
    result of [path.Split]. *)
Fixpoint dir_part (p : string) : string :=
  match p with
  | EmptyString => EmptyString
  | String c p' =>
      if has_slash p' then String c (dir_part p')
      else if Ascii.eqb c slash then String c EmptyString
      else EmptyString
  end.

Definition Dir (p : string) : string := Clean (dir_part p).

End path.

(** ** Package [bytes] of the standard library *)

(** [bytes.Split(s, []byte{sep})] for a one-byte separator, the only
  form the file uses: the pieces of [s] between the occurrences of
  [sep], empty pieces included; one (empty) piece for an empty [s]. *)
Fixpoint bytes_Split (s : bytes) (sep : byte) : list bytes :=
  match s with
  | [] => [[]]
  | b :: s' =>
      if Byte.eqb b sep then [] :: bytes_Split s' sep
      else match bytes_Split s' sep with
           | p :: ps => (b :: p) :: ps
           | [] => [[b]]
           end
  end.

Definition newline : byte := x0a.

(** [bytes.Count(s, []byte{sep})]: the number of occurrences of [sep]. *)
Definition bytes_Count (s : bytes) (sep : byte) : nat :=
  length (List.filter (λ b, Byte.eqb b sep) s).

(** ** Commands (command.go) *)

(** Modelled from the spec: [command.go] is not among the sources.  The
  command builder "accepts a base subcommand name and a variadic list
  of arguments; supports incremental appending", the arguments being
  "passed through verbatim to the subprocess". *)
Record Command : Type := { args : list string }.

Definition NewCommand (a : list string) : Command := {| args := a |}.

Definition AddArguments (c : Command) (a : list string) : Command :=
  {| args := args c ++ a |}.

(** What reaches the subprocess runner: the assembled arguments, the
  working directory (the empty string for the current one) and the
  timeout, [-1] standing for none. *)
Record Invocation : Type := {
  inv_args : list string;
  inv_dir : string;
  inv_timeout : Duration;
}.

Global Instance Invocation_eq_dec : EqDecision Invocation.
Proof. solve_decision. Defined.

(** ** Data model of repo.go *)

(** [Repository]: the two caches are pointers, shared by every copy of
  the handle. *)
Record Repository : Type := {
  Path : string;
  commitCache : loc;
  tagCache : loc;
}.

Global Instance Repository_eq_dec : EqDecision Repository.
Proof. solve_decision. Defined.

Record CloneRepoOptions : Type := {
  Mirror : bool;
  Bare : bool;
  Quiet : bool;
  Timeout : Duration;
}.

(** [opts.Timeout = t] on the callee's copy of the options. *)
Definition CloneRepoOptions_setTimeout (opts : CloneRepoOptions) (t : Duration)
  : CloneRepoOptions :=
  {| Mirror := Mirror opts; Bare := Bare opts; Quiet := Quiet opts;
     Timeout := t |}.

Record PullRemoteOptions : Type := {
  All : bool;
  pull_Timeout : Duration;
}.

Definition PullRemoteOptions_setTimeout (opts : PullRemoteOptions) (t : Duration)
  : PullRemoteOptions :=
  {| All := All opts; pull_Timeout := t |}.

Record FetchRemoteOptions : Type := {
  Prune : bool;
  fetch_Timeout : Duration;
}.

Definition FetchRemoteOptions_setTimeout (opts : FetchRemoteOptions)
    (t : Duration) : FetchRemoteOptions :=
  {| Prune := Prune opts; fetch_Timeout := t |}.

Record RebaseOptions : Type := { Branch : string }.

Record PushOptions : Type := { Force : bool }.

Definition _PRETTY_LOG_FORMAT : string := "--pretty=format:%H".

(** ** The world outside repo.go *)

(** What the file asks of the operating system, the standard library and
  the external tool.  [State] is everything they keep: the file
  system, the working directory, the repositories on disk. *)
Class Runtime : Type := {
  State : Type;
  (** [filepath.Abs]: an absolute representation of the path, or an
    error when the working directory cannot be determined. *)
  sys_Abs : string → State → string * option error;
  (** [isDir] of utils.go (not among the sources): whether the path
    exists and is a directory. *)
  sys_isDir : string → State → bool;
  (** [os.MkdirAll]: creates the directory with any necessary parents. *)
  sys_MkdirAll : string → FileMode → State → State * option error;
  (** The external tool run once with the given arguments, directory and
    timeout: its output and its failure, if any. *)
  sys_exec : Invocation → State → State * (string * option error);
  (** Contracts of the standard library. *)
  sys_Abs_IsAbs : ∀ p s a, sys_Abs p s = (a, None) → path.IsAbs a = true;
  sys_MkdirAll_isDir : ∀ p m s s',
  sys_MkdirAll p m s = (s', None) → sys_isDir p s' = true;
}.

(** The calls that leave the process. *)
Inductive Event : Type :=
| EvMkdirAll (dir : string) (perm : FileMode)
| EvRun (inv : Invocation)
| EvGetCommit (repo : Repository) (commitId : string).

Global Instance Event_eq_dec : EqDecision Event.
Proof. solve_decision. Defined.

(** The subprocess invocations of a trace, in order. *)
Definition invocations (t : list Event) : list Invocation :=
  omap (λ ev, match ev with EvRun i => Some i | _ => None end) t.

Section Repo.

Context `{R : Runtime}.
(** [Commit] and [Tag] are declared in other files of the package. *)
Context {Commit Tag : Type}.

(** Modelled from the spec: the result cache of §4.3 (its file is not
    among the sources), "a mapping from string key to previously
    computed object", with no eviction and no size bound. *)
Inductive Object : Type :=
| CommitObject (c : Commit)
| TagObject (t : Tag).

Definition objectCache : Type := gmap string Object.

Record World : Type := {
  os : State;
  heap : gmap loc objectCache;
}.

(** A computation: from a world to its value, the next world and the
    calls it made. *)
Definition M (A : Type) : Type := World → A * World * list Event.

Global Instance M_ret : MRet M := λ A a w, (a, w, []).

Global Instance M_bind : MBind M := λ A B f m w,
  let '(a, w1, t1) := m w in
  let '(b, w2, t2) := f a w1 in
  (b, w2, t1 ++ t2).

(** What a run returned, the world it left, and the calls it made. *)
Definition result {A : Type} (x : A * World * list Event) : A := x.1.1.
Definition after {A : Type} (x : A * World * list Event) : World := x.1.2.
Definition events {A : Type} (x : A * World * list Event) : list Event := x.2.

(** *** Calls into the runtime *)

Definition filepath_Abs (p : string) : M (string * option error) :=
  λ w, (sys_Abs p (os w), w, []).

Definition isDir (p : string) : M bool :=
  λ w, (sys_isDir p (os w), w, []).

Definition os_MkdirAll (p : string) (perm : FileMode) : M (option error) :=
  λ w, let '(s, err) := sys_MkdirAll p perm (os w) in
       (err, {| os := s; heap := heap w |}, [EvMkdirAll p perm]).

(** *** The subprocess runner (command.go) *)

(** Modelled from the spec: the runner of §4.2 "executes the external
    binary with the assembled arguments, either in the current
    directory or in a specified working directory, with or without a
    timeout".  Each run is one recorded invocation. *)
Definition RunInDirTimeout (c : Command) (timeout : Duration) (dir : string)
  : M (string * option error) :=
  λ w, let inv := {| inv_args := args c; inv_dir := dir;
                     inv_timeout := timeout |} in
       let '(s, r) := sys_exec inv (os w) in
       (r, {| os := s; heap := heap w |}, [EvRun inv]).

Definition RunInDir (c : Command) (dir : string) : M (string * option error) :=
  RunInDirTimeout c (-1) dir.

Definition RunTimeout (c : Command) (timeout : Duration)
  : M (string * option error) :=
  RunInDirTimeout c timeout "".

(** *** The object caches *)

(** Modelled from the spec: "caches are empty at creation and
    populated lazily".  A new cache is a fresh cell of the store. *)
Definition newObjectCache : M loc :=
  λ w, let l := fresh (dom (heap w)) in
       (l, {| os := os w; heap := <[l := ∅]> (heap w) |}, []).

(** What the cache at [c] holds under [key]; nothing when there is no
    such cache. *)
Definition cache_lookup (c : loc) (key : string) (w : World) : option Object :=
  heap w !! c ≫= λ m, m !! key.

Definition cache_Get (c : loc) (key : string) : M (option Object) :=
  λ w, (cache_lookup c key w, w, []).

Definition cache_Set (c : loc) (key : string) (o : Object) : M unit :=
  λ w, ((), {| os := os w; heap := alter (<[key := o]>) c (heap w) |}, []).

(** *** container/list *)

(** A [*list.List] whose elements are [*Commit] values; a nil
    [*Commit] is [None]. *)
Definition list_New : list (option Commit) := [].

Definition PushBack (l : list (option Commit)) (v : option Commit)
  : list (option Commit) :=
  l ++ [v].

(** *** Log parsing *)

Section Log.

(** [GetCommit] is a method of [Repository] declared in another file of
    the package; the parser is defined for any implementation of it. *)
Variable GetCommit : Repository → string → M (option Commit * option error).

(** The [for _, commitId := range parts] loop, [l] being the list
    built so far. *)
Fixpoint rangeParts (repo : Repository) (parts : list bytes)
    (l : list (option Commit))
  : M (option (list (option Commit)) * option error) :=
  match parts with
  | [] => mret (Some l, None)
  | commitId :: parts' =>
      '(commit, err) ← GetCommit repo (string_of_list_byte commitId);
      match err with
      | Some e => mret (None, Some e)
      | None => rangeParts repo parts' (PushBack l commit)
      end
  end.

Definition parsePrettyFormatLogToList (repo : Repository) (logs : bytes)
  : M (option (list (option Commit)) * option error) :=
  let l := list_New in
  if (length logs =? 0)%nat then mret (Some l, None)
  else
    let parts := bytes_Split logs newline in
    rangeParts repo parts l.

End Log.

(** An implementation of [GetCommit] given by its effect on the world,
    each call to it being recorded in the trace. *)
Definition recording
    (g : Repository → string → World → option Commit * option error * World)
  : Repository → string → M (option Commit * option error) :=
  λ repo commitId w,
    let '(r, w') := g repo commitId w in (r, w', [EvGetCommit repo commitId]).

(** *** Repository operations *)

(** InitRepository initializes a new Git repository. *)
Definition InitRepository (repoPath : string) (bare : bool) : M (option error) :=
  _ ← os_MkdirAll repoPath os_ModePerm;
  let cmd := NewCommand ["init"] in
  let cmd := if bare then AddArguments cmd ["--bare"] else cmd in
  '(_, err) ← RunInDir cmd repoPath;
  mret err.

(** OpenRepository opens the repository at the given path. *)
Definition OpenRepository (repoPath : string)
  : M (option Repository * option error) :=
  '(repoPath, err) ← filepath_Abs repoPath;
  match err with
  | Some e => mret (None, Some e)
  | None =>
      d ← isDir repoPath;
      if negb d then mret (None, Some (errors_New "no such file or directory"))
      else
        cc ← newObjectCache;
        tc ← newObjectCache;
        mret (Some {| Path := repoPath; commitCache := cc; tagCache := tc |},
              None)
  end.

(** Clone clones original repository to target path. *)
Definition Clone (from to : string) (opts : CloneRepoOptions)
  : M (option error) :=
  let toDir := path.Dir to in
  err ← os_MkdirAll toDir os_ModePerm;
  match err with
  | Some e => mret (Some e)
  | None =>
      let cmd := NewCommand ["clone"] in
      let cmd := if Mirror opts then AddArguments cmd ["--mirror"] else cmd in
      let cmd := if Bare opts then AddArguments cmd ["--bare"] else cmd in
      let cmd := if Quiet opts then AddArguments cmd ["--quiet"] else cmd in
      let cmd := AddArguments cmd [from; to] in
      let opts := if Timeout opts <=? 0
                  then CloneRepoOptions_setTimeout opts (-1) else opts in
      '(_, err) ← RunTimeout cmd (Timeout opts);
      mret err
  end.

(** Pull pulls changes from remotes. *)
Definition Pull (repoPath : string) (opts : PullRemoteOptions)
  : M (option error) :=
  let cmd := NewCommand ["pull"] in
  let cmd := if All opts then AddArguments cmd ["--all"] else cmd in
  let opts := if pull_Timeout opts <=? 0
              then PullRemoteOptions_setTimeout opts (-1) else opts in
  '(_, err) ← RunInDirTimeout cmd (pull_Timeout opts) repoPath;
  mret err.

(** Fetch fetch changes from remotes. *)
Definition Fetch (repoPath : string) (opts : FetchRemoteOptions)
  : M (option error) :=
  let cmd := NewCommand ["fetch"] in
  let cmd := if Prune opts then AddArguments cmd ["--prune"] else cmd in
  let opts := if fetch_Timeout opts <=? 0
              then FetchRemoteOptions_setTimeout opts (-1) else opts in
  '(_, err) ← RunInDirTimeout cmd (fetch_Timeout opts) repoPath;
  mret err.

(** Rebase rebase local commits on top of remote branch. *)
Definition Rebase (repoPath : string) (opts : RebaseOptions)
  : M (option error) :=
  let cmd := NewCommand ["rebase"] in
  let cmd := if negb (String.eqb (Branch opts) "")
             then AddArguments cmd [Branch opts] else cmd in
  '(_, err) ← RunInDir cmd repoPath;
  mret err.

(** Push pushs local commits to given remote branch. *)
Definition Push (repoPath remote branch : string) (opts : PushOptions)
  : M (option error) :=
  let cmd := NewCommand ["push"] in
  let cmd := if Force opts then AddArguments cmd ["--force"] else cmd in
  let cmd := AddArguments cmd [remote] in
  let cmd := AddArguments cmd [branch] in
  '(_, err) ← RunInDir cmd repoPath;
  mret err.

(** ResetHEAD resets HEAD to given revision or head of branch. *)
Definition ResetHEAD (repoPath : string) (hard : bool) (revision : string)
  : M (option error) :=
  let cmd := NewCommand ["reset"] in
  let cmd := if hard then AddArguments cmd ["--hard"] else cmd in
  '(_, err) ← RunInDir (AddArguments cmd [revision]) repoPath;
  mret err.

Definition Checkout (repoPath version : string) : M (option error) :=
  '(_, err) ← RunInDir (NewCommand ["checkout"; version]) repoPath;
  mret err.

(** *** Commit lookup through the cache *)

Section Lookup.

(** The spec names neither the subcommand that prints a commit nor the
    format it is parsed from; both are left open. *)
Variable commitCommand : string → Command.
Variable parseCommitData : string → option Commit * option error.

(** Modelled from the spec: [GetCommit] is declared in a file that is
    not among the sources.  Per §4.3 and §4.4 a line is resolved "via
    the cache/lookup path": the commit cache of the handle is consulted
    first, "to avoid re-invoking the subprocess and re-parsing when the
    same commit or tag identifier is requested twice within the lifetime
    of a repository handle"; on a miss the subprocess is run in the
    repository's directory, its output parsed, and the parsed result
    memoized under the identifier. *)
Definition GetCommit (repo : Repository) (commitId : string)
  : M (option Commit * option error) :=
  hit ← cache_Get (commitCache repo) commitId;
  match hit with
  | Some (CommitObject c) => mret (Some c, None)
  | _ =>
      '(data, err) ← RunInDir (commitCommand commitId) (Path repo);
      match err with
      | Some e => mret (None, Some e)
      | None =>
          match parseCommitData data with
          | (_, Some e) => mret (None, Some e)
          | (None, None) => mret (None, None)
          | (Some c, None) =>
              _ ← cache_Set (commitCache repo) commitId (CommitObject c);
              mret (Some c, None)
          end
      end
  end.

End Lookup.

End Repo.

(** ** A simulated runtime

    A small file system and a stand-in for the external tool, used to
    run the operations on concrete inputs. *)
Module Sim.

Record Disk : Type := {
  (** what [os.Getwd] reports; [None] when it fails *)
  wd : option string;
  dirs : list string;
  files : list string;
  (** the text the tool prints for the commits it knows *)
  commits : list (string * string);
}.

Definition elem (p : string) (ps : list string) : bool :=
  existsb (String.eqb p) ps.

Definition getwd_error : error := errors_New "getwd: no such file or directory".

(** [filepath.Abs] on a Unix system. *)
Definition Abs (p : string) (d : Disk) : string * option error :=
  if path.IsAbs p then (path.Clean p, None)
  else match wd d with
       | Some cwd =>
           if path.IsAbs cwd then (path.Clean (cwd +:+ "/" +:+ p), None)
           else ("", Some getwd_error)
       | None => ("", Some getwd_error)
       end.

Definition isDir (p : string) (d : Disk) : bool := elem p (dirs d).

(** The prefixes of [p] that end before a run of slashes, shortest
    first; [acc] is the prefix read so far and [sep] tells whether it
    ends in a slash. *)
Fixpoint parents (acc : string) (sep : bool) (p : string) : list string :=
  match p with
  | EmptyString => []
  | String c p' =>
      let here := Ascii.eqb c path.slash in
      let rest := parents (acc +:+ String c EmptyString) here p' in
      if here && negb sep && negb (String.eqb acc "") then acc :: rest
      else rest
  end.

Definition not_a_directory : error := errors_New "mkdir: not a directory".
Definition no_such_file : error := errors_New "mkdir: no such file or directory".

(** [os.MkdirAll]: fails on the empty path and when the path or one of
    its parents is a file; otherwise the path and its parents are
    directories afterwards. *)
Definition MkdirAll (p : string) (perm : FileMode) (d : Disk)
  : Disk * option error :=
  if String.eqb p "" then (d, Some no_such_file)
  else
    let chain := parents "" false p ++ [p] in
    if existsb (λ q, elem q (files d)) chain
    then (d, Some not_a_directory)
    else ({| wd := wd d; dirs := chain ++ dirs d;
             files := files d; commits := commits d |}, None).

Definition chdir_error : error := errors_New "chdir: no such file or directory".
Definition exit_error : error := errors_New "exit status 128".

(** The tool: it needs its working directory to exist, prints a known
    commit on [cat-file -p], and accepts everything else silently. *)
Definition exec (inv : Invocation) (d : Disk) : Disk * (string * option error) :=
  if negb (String.eqb (inv_dir inv) "") && negb (isDir (inv_dir inv) d)
  then (d, ("", Some chdir_error))
  else match inv_args inv with
       | ["cat-file"; "-p"; commitId] =>
           match List.find (λ c, String.eqb c.1 commitId) (commits d) with
           | Some c => (d, (c.2, None))
           | None => (d, ("", Some exit_error))
           end
       | _ => (d, ("", None))
       end.

Lemma Clean_IsAbs (p : string) : path.IsAbs p = true → path.IsAbs (path.Clean p) = true.
Proof.
  intros Hp. unfold path.Clean. rewrite Hp.
  destruct p as [|c p]; [discriminate|]. simpl.
  unfold path.slash. reflexivity.
Qed.

Lemma Abs_IsAbs (p : string) (d : Disk) (a : string) :
  Abs p d = (a, None) → path.IsAbs a = true.
Proof.
  unfold Abs. destruct (path.IsAbs p) eqn:Hp.
  - intros [= <-]. by apply Clean_IsAbs.
  - destruct (wd d) as [cwd|]; [|discriminate].
    destruct (path.IsAbs cwd) eqn:Hc; [|discriminate].
    intros [= <-]. apply Clean_IsAbs.
    destruct cwd; [discriminate|]. exact Hc.
Qed.

Lemma MkdirAll_isDir (p : string) (perm : FileMode) (d d' : Disk) :
  MkdirAll p perm d = (d', None) → isDir p d' = true.
Proof.
  unfold MkdirAll, isDir. destruct (String.eqb p ""); [discriminate|].
  destruct (existsb _ _); [discriminate|].
  intros [= <-]. unfold elem. simpl.
  rewrite !existsb_app. simpl. rewrite String.eqb_refl.
  by rewrite orb_true_r.
Qed.

Global Instance runtime : Runtime := {|
  State := Disk;
  sys_Abs := Abs;
  sys_isDir := isDir;
  sys_MkdirAll := MkdirAll;
  sys_exec := exec;
  sys_Abs_IsAbs := Abs_IsAbs;
  sys_MkdirAll_isDir := MkdirAll_isDir;
|}.

(** Commits are shown by their text. *)
Definition commitCommand (commitId : string) : Command :=
  NewCommand ["cat-file"; "-p"; commitId].

Definition parseCommitData (data : string) : option string * option error :=
  if String.eqb data "" then (None, Some (errors_New "empty commit"))
  else (Some data, None).

Definition disk : Disk := {|
  wd := Some "/home/git";
  dirs := [ "/"; "/home"; "/home/git"; "/home/git/repo" ];
  files := [ "/home/git/notes" ];
  commits := [ ("1111111111111111111111111111111111111111", "tree 1");
               ("2222222222222222222222222222222222222222", "tree 2") ];
|}.

Definition world : World (Commit := string) (Tag := string) :=
  {| os := disk; heap := ∅ |}.

(** A process whose working directory is there but can no longer be
    named: [os.Getwd] fails, "." is still a directory. *)
Definition lost : World (Commit := string) (Tag := string) :=
  {| os := {| wd := None; dirs := [ "." ]; files := []; commits := [] |};
     heap := ∅ |}.

(** The handle and the world that [OpenRepository "repo"] yields. *)
Definition repo : Repository :=
  {| Path := "/home/git/repo"; commitCache := 0%nat; tagCache := 1%nat |}.

Definition opened : World (Commit := string) (Tag := string) :=
  after (OpenRepository "repo" world).

Definition GetCommit : Repository → string → M (option string * option error) :=
  GetCommit (Tag := string) commitCommand parseCommitData.

Definition id1 : string := "1111111111111111111111111111111111111111".
Definition id2 : string := "2222222222222222222222222222222222222222".

(** Three lines, the second of which names no commit. *)
Definition log_bad : bytes :=
  list_byte_of_string id1 ++ [newline] ++ list_byte_of_string "bad"
    ++ [newline] ++ list_byte_of_string id2.

(** Two commits, one per line, no newline at the end. *)
Definition log_two : bytes :=
  list_byte_of_string id1 ++ [newline] ++ list_byte_of_string id2.

End Sim.

(** ** Vocabulary for further properties *)

(** [bytes.Join(parts, []byte{sep})] for a one-byte separator: the
    inverse of [bytes_Split]. *)
Fixpoint bytes_Join (parts : list bytes) (sep : byte) : bytes :=
  match parts with
  | [] => []
  | p :: ps =>
      match ps with
      | [] => p
      | _ :: _ => p ++ sep :: bytes_Join ps sep
      end
  end.

Section Resolution.

Context `{R : Runtime} {Commit Tag : Type}.

Variable GetCommit :
  Repository → string → M (Commit := Commit) (Tag := Tag)
                          (option Commit * option error).
Variable repo : Repository.

(** [Resolves parts w cs w' t]: starting in [w], every part resolves
    without error, one after the other, each in the world the previous
    one left; [cs] are the commits in the order of the parts, [w'] the
    last world and [t] the calls made. *)
Inductive Resolves
  : list bytes → World → list (option Commit) → World → list Event → Prop :=
| Resolves_nil (w : World) : Resolves [] w [] w []
| Resolves_cons (p : bytes) (ps : list bytes) (w w1 w2 : World)
    (c : option Commit) (cs : list (option Commit)) (t1 t2 : list Event) :
    GetCommit repo (string_of_list_byte p) w = (c, None, w1, t1) →
    Resolves ps w1 cs w2 t2 →
    Resolves (p :: ps) w (c :: cs) w2 (t1 ++ t2).

End Resolution.

(** A [GetCommit] that answers with a nil commit and a nil error. *)
Definition nilCommit `{R : Runtime} {Commit Tag : Type}
  : Repository → string → M (Commit := Commit) (Tag := Tag)
                            (option Commit * option error) :=
  λ _ _ w, (None, None, w, []).

(** [RunsOnceIn dir w x]: the run [x], started in [w], consisted of
    one invocation of the tool, in [dir], and returned the error of that
    invocation; the world it left is the one the tool left, with the
    object caches as they were. *)
Definition RunsOnceIn `{R : Runtime} {Commit Tag : Type} (dir : string)
    (w : World (Commit := Commit) (Tag := Tag))
    (x : option error * World (Commit := Commit) (Tag := Tag) * list Event)
  : Prop :=
  ∃ inv, events x = [EvRun inv] ∧ inv_dir inv = dir ∧
    result x = (sys_exec inv (os w)).2.2 ∧
    after x = {| os := (sys_exec inv (os w)).1; heap := heap w |}.

(** ** The package in use over time *)


Section Requests.

Context `{R : Runtime} {Commit Tag : Type}.

Variable commitCommand : string → Command.
Variable parseCommitData : string → option Commit * option error.



End Requests.

(** * Properties *)

(** ** Splitting on a byte *)

Lemma bytes_Split_not_nil (s : bytes) (sep : byte) : bytes_Split s sep ≠ [].
Proof.
  destruct s as [|b s]; simpl; [discriminate|].
  destruct (Byte.eqb b sep); [discriminate|].
  destruct (bytes_Split s sep); discriminate.
Qed.

Lemma bytes_Split_snoc (s : bytes) (sep : byte) :
  bytes_Split (s ++ [sep]) sep = bytes_Split s sep ++ [[]].
Proof.
  induction s as [|b s IH]; simpl.
  - by rewrite (byte_dec_lb (eq_refl sep)).
  - destruct (Byte.eqb b sep); rewrite IH; [done|].
    pose proof (bytes_Split_not_nil s sep) as Hne.
    destruct (bytes_Split s sep); [done|reflexivity].
Qed.

Lemma length_bytes_Split (s : bytes) (sep : byte) :
  length (bytes_Split s sep) = S (bytes_Count s sep).
Proof.
  unfold bytes_Count. induction s as [|b s IH]; simpl; [done|].
  destruct (Byte.eqb b sep); simpl; [by rewrite IH|].
  pose proof (bytes_Split_not_nil s sep) as Hne.
  destruct (bytes_Split s sep); [done|]. exact IH.
Qed.

(** ** Log parsing *)

Section LogProperties.

Context `{R : Runtime} {Commit Tag : Type}.

Local Abbreviation World := (World (Commit := Commit) (Tag := Tag)).
Local Abbreviation M := (M (Commit := Commit) (Tag := Tag)).

Implicit Types (GetCommit : Repository → string → M (option Commit * option error)).
Implicit Types (repo : Repository) (w : World) (l : list (option Commit)).

Lemma rangeParts_cons GetCommit repo (p : bytes) (ps : list bytes) l w :
  rangeParts GetCommit repo (p :: ps) l w =
    let '(c, err, w1, t1) := GetCommit repo (string_of_list_byte p) w in
    match err with
    | Some e => (None, Some e, w1, t1)
    | None =>
        let '(r, w2, t2) := rangeParts GetCommit repo ps (l ++ [c]) w1 in
        (r, w2, t1 ++ t2)
    end.
Proof.
  simpl. unfold mbind, M_bind.
  destruct (GetCommit _ _ _) as [[[c [e|]] w1] t1]; simpl.
  - by rewrite app_nil_r.
  - reflexivity.
Qed.

(** The loop either fails with nothing, or returns the list it was
    given extended by one commit per part. *)
Lemma rangeParts_outcome GetCommit repo (ps : list bytes) l w :
  let '(r, _, _) := rangeParts GetCommit repo ps l w in
  (∃ e, r = (None, Some e)) ∨
  (∃ cs, r = (Some (l ++ cs), None) ∧ length cs = length ps ∧
      Forall (λ p, ∃ w0 c w1 t1,
        GetCommit repo (string_of_list_byte p) w0 = (c, None, w1, t1)) ps).
Proof.
  revert l w. induction ps as [|p ps IH]; intros l w.
  - simpl. right. exists []. by rewrite app_nil_r.
  - rewrite rangeParts_cons.
    destruct (GetCommit _ _ _) as [[[c [e|]] w1] t1] eqn:HG; [by eauto|].
    specialize (IH (l ++ [c]) w1).
    destruct (rangeParts _ _ _ _ _) as [[r w2] t2].
    destruct IH as [?|(cs & -> & Hlen & Hall)]; [by left|].
    right. exists (c :: cs). rewrite <- app_assoc. simpl.
    split_and!; [done|by rewrite Hlen|]. constructor; eauto.
Qed.

(** Running the loop over [ps ++ qs] is running it over [ps] and, when
    that went through, over [qs]. *)
Lemma rangeParts_app GetCommit repo (ps qs : list bytes) l w :
  rangeParts GetCommit repo (ps ++ qs) l w =
    let '(r, w1, t1) := rangeParts GetCommit repo ps l w in
    match r with
    | (Some l1, None) =>
        let '(r2, w2, t2) := rangeParts GetCommit repo qs l1 w1 in
        (r2, w2, t1 ++ t2)
    | _ => (r, w1, t1)
    end.
Proof.
  revert l w. induction ps as [|p ps IH]; intros l w.
  - simpl. by destruct (rangeParts _ _ qs l w) as [[r2 w2] t2].
  - rewrite <- app_comm_cons, !rangeParts_cons.
    destruct (GetCommit _ _ _) as [[[c [e|]] w1] t1]; [done|].
    rewrite IH.
    pose proof (rangeParts_outcome GetCommit repo ps (l ++ [c]) w1) as Hout.
    destruct (rangeParts _ _ ps _ _) as [[r w2] t2].
    destruct Hout as [[e ->]|(cs & -> & _)]; [done|].
    destruct (rangeParts _ _ qs _ _) as [[r3 w3] t3].
    by rewrite app_assoc.
Qed.

Lemma parse_nonempty GetCommit repo (logs : bytes) w :
  logs ≠ [] →
  parsePrettyFormatLogToList GetCommit repo logs w =
    rangeParts GetCommit repo (bytes_Split logs newline) [] w.
Proof. destruct logs; [done|reflexivity]. Qed.

(** A run that reaches a failing line returns that line's error and no
    list. *)
Lemma rangeParts_fails GetCommit repo (pre post : list bytes) (line : bytes)
    l w cs w1 t1 c e w2 t2 :
  rangeParts GetCommit repo pre l w = (Some cs, None, w1, t1) →
  GetCommit repo (string_of_list_byte line) w1 = (c, Some e, w2, t2) →
  rangeParts GetCommit repo (pre ++ line :: post) l w = (None, Some e, w2, t1 ++ t2).
Proof.
  intros Hpre Hline. rewrite rangeParts_app, Hpre, rangeParts_cons, Hline.
  reflexivity.
Qed.

(** A line that cannot be resolved in any world makes the loop fail. *)
Lemma rangeParts_unresolvable GetCommit repo (ps : list bytes) (line : bytes) l w :
  line ∈ ps →
  (∀ w0, ∃ c e w1 t1,
     GetCommit repo (string_of_list_byte line) w0 = (c, Some e, w1, t1)) →
  ∃ e w' t, rangeParts GetCommit repo ps l w = (None, Some e, w', t).
Proof.
  intros Hin Hbad.
  pose proof (rangeParts_outcome GetCommit repo ps l w) as Hout.
  destruct (rangeParts _ _ _ _ _) as [[r w'] t].
  destruct Hout as [[e ->]|(cs & -> & _ & Hall)]; [by eauto|].
  rewrite Forall_forall in Hall.
  destruct (Hall _ Hin) as (w0 & c & w1 & t1 & Hok).
  destruct (Hbad w0) as (c' & e & w1' & t1' & Hko). congruence.
Qed.

(** The calls a recording [GetCommit] leaves in the trace are those for
    a prefix of the parts, cut short only by a failure. *)
Lemma rangeParts_recording
    (g : Repository → string → World → option Commit * option error * World)
    repo (ps : list bytes) l w :
  let '(r, _, t) := rangeParts (recording g) repo ps l w in
  ∃ k, (k ≤ length ps)%nat ∧
    t = EvGetCommit repo <$> take k (string_of_list_byte <$> ps) ∧
    (ps ≠ [] → (1 ≤ k)%nat) ∧
    (r.2 = None → k = length ps).
Proof.
  revert l w. induction ps as [|p ps IH]; intros l w.
  - simpl. exists 0%nat. done.
  - rewrite rangeParts_cons. unfold recording at 1.
    destruct (g _ _ _) as [[c [e|]] w1].
    + exists 1%nat. simpl. split_and!; [lia|done|lia|done].
    + specialize (IH (l ++ [c]) w1).
      destruct (rangeParts _ _ _ _ _) as [[r w2] t2].
      destruct IH as (k & Hk & -> & _ & Hfull).
      exists (S k). simpl. split_and!; [lia|done|lia|].
      intros Hr. by rewrite Hfull.
Qed.

(** [C4]  When the log output is empty, [parsePrettyFormatLogToList]
    returns an empty list and no error, and does so without resolving
    anything: whatever [GetCommit] is, the world is left as it was and
    no call is recorded. *)
Theorem C4_empty_log GetCommit repo w :
  parsePrettyFormatLogToList GetCommit repo [] w = (Some [], None, w, []).
Proof. reflexivity. Qed.

(** [C1]  For a log output with at least one line, a line whose
    resolution fails makes [parsePrettyFormatLogToList] return that
    error and a nil list.  First part: when the lines before it resolved
    (to the commits [cs]), the result is the error of the failing line,
    no list, and nothing of the later lines is attempted.  Second part:
    a line that fails wherever it is tried makes the whole parse fail
    with a nil list. *)
Theorem C1_failing_line_fails_all GetCommit repo (logs : bytes) w :
  logs ≠ [] →
  (∀ (pre post : list bytes) (line : bytes) cs w1 t1 c e w2 t2,
     bytes_Split logs newline = pre ++ line :: post →
     rangeParts GetCommit repo pre list_New w = (Some cs, None, w1, t1) →
     GetCommit repo (string_of_list_byte line) w1 = (c, Some e, w2, t2) →
     parsePrettyFormatLogToList GetCommit repo logs w
       = (None, Some e, w2, t1 ++ t2)) ∧
  (∀ line : bytes,
     line ∈ bytes_Split logs newline →
     (∀ w0, ∃ c e w1 t1,
        GetCommit repo (string_of_list_byte line) w0 = (c, Some e, w1, t1)) →
     ∃ e w' t,
       parsePrettyFormatLogToList GetCommit repo logs w = (None, Some e, w', t)).
Proof.
  intros Hne. split.
  - intros pre post line cs w1 t1 c e w2 t2 Hsplit Hpre Hline.
    rewrite parse_nonempty, Hsplit by done.
    by eapply rangeParts_fails.
  - intros line Hin Hbad. rewrite parse_nonempty by done.
    by eapply rangeParts_unresolvable.
Qed.

(** [C9]  For a non-empty log output the parser resolves one identifier
    per newline-separated segment, empty segments included.  First part:
    the identifiers passed to [GetCommit] are the segments in order, from
    the first one on, none skipped, stopping only at a failure; there is
    one segment more than there are newline bytes, and a successful parse
    has called [GetCommit] on every one of them and returns as many
    commits.  Second part: when an output parses to [cs], the same output
    followed by a newline makes the parser resolve the empty identifier
    after them; the result is that resolution's error, or [cs] with one
    more element. *)
Theorem C9_one_attempt_per_segment repo (logs : bytes) w :
  logs ≠ [] →
  (∀ g : Repository → string → World → option Commit * option error * World,
     let '(r, _, t) := parsePrettyFormatLogToList (recording g) repo logs w in
     let ids := string_of_list_byte <$> bytes_Split logs newline in
     length ids = S (bytes_Count logs newline) ∧
     ∃ k, (1 ≤ k ≤ length ids)%nat ∧
       t = EvGetCommit repo <$> take k ids ∧
       (r.2 = None → k = length ids ∧
          ∃ cs, r.1 = Some cs ∧ length cs = length ids)) ∧
  (∀ GetCommit cs w1 t1,
     parsePrettyFormatLogToList GetCommit repo logs w = (Some cs, None, w1, t1) →
     parsePrettyFormatLogToList GetCommit repo (logs ++ [newline]) w =
       let '(c, err, w2, t2) := GetCommit repo "" w1 in
       (match err with
        | Some e => (None, Some e)
        | None => (Some (cs ++ [c]), None)
        end, w2, t1 ++ t2)).
Proof.
  intros Hne. split.
  - intros g. rewrite parse_nonempty by done.
    pose proof (rangeParts_recording g repo (bytes_Split logs newline) [] w) as Hrec.
    pose proof (rangeParts_outcome (recording g) repo
                  (bytes_Split logs newline) [] w) as Hout.
    destruct (rangeParts _ _ _ _ _) as [[r w'] t]. cbv zeta.
    rewrite length_fmap, length_bytes_Split. split; [done|].
    destruct Hrec as (k & Hk & -> & Hpos & Hfull).
    rewrite length_bytes_Split in Hk, Hfull.
    exists k. split_and!; [|lia|done|].
    + apply Hpos, bytes_Split_not_nil.
    + intros Hr. split; [by apply Hfull|].
      destruct Hout as [[e ->]|(cs & -> & Hlen & _)]; [done|].
      exists cs. by rewrite Hlen, length_bytes_Split.
  - intros GetCommit cs w1 t1 Hparse.
    rewrite parse_nonempty in Hparse by done.
    rewrite parse_nonempty by (by destruct logs).
    rewrite bytes_Split_snoc, rangeParts_app, Hparse, rangeParts_cons.
    change (string_of_list_byte []) with "".
    destruct (GetCommit repo "" w1) as [[[c [e|]] w2] t2]; [done|].
    simpl. by rewrite app_nil_r.
Qed.

End LogProperties.

(** ** Repository operations *)

Section OperationProperties.

Context `{R : Runtime} {Commit Tag : Type}.

Local Abbreviation World := (World (Commit := Commit) (Tag := Tag)).

Implicit Types (w : World) (repo : Repository).

(** Unfolds an operation down to the calls into the runtime. *)
Ltac run_op :=
  unfold InitRepository, Clone, Pull, Fetch, Rebase, Push, ResetHEAD, Checkout,
    RunInDir, RunTimeout, RunInDirTimeout, os_MkdirAll, result, after, events,
    mbind, M_bind, mret, M_ret;
  simpl.

(** [Clone] written out: the directory is created first; the tool runs
    only if that succeeded, in the current directory, with the
    normalized timeout. *)
Lemma Clone_unfold (from to : string) (opts : CloneRepoOptions) w :
  let dir := path.Dir to in
  let inv := {| inv_args :=
                  ["clone"] ++ (if Mirror opts then ["--mirror"] else [])
                    ++ (if Bare opts then ["--bare"] else [])
                    ++ (if Quiet opts then ["--quiet"] else [])
                    ++ [from; to];
                inv_dir := "";
                inv_timeout := if Timeout opts <=? 0 then -1 else Timeout opts |} in
  Clone from to opts w =
    match sys_MkdirAll dir os_ModePerm (os w) with
    | (s1, Some e) => (Some e, {| os := s1; heap := heap w |},
                       [EvMkdirAll dir os_ModePerm])
    | (s1, None) =>
        (* the tool runs in the state the directory creation left *)
        ((sys_exec inv s1).2.2,
         {| os := (sys_exec inv s1).1; heap := heap w |},
         [EvMkdirAll dir os_ModePerm; EvRun inv])
    end.
Proof.
  run_op. destruct (sys_MkdirAll _ _ _) as [s1 [e|]]; simpl; [done|].
  destruct opts as [[] [] [] t]; simpl;
    destruct (t <=? 0); simpl;
    destruct (sys_exec _ s1) as [s2 [out err]]; reflexivity.
Qed.

Lemma Pull_unfold (repoPath : string) (opts : PullRemoteOptions) w :
  let inv := {| inv_args := ["pull"] ++ (if All opts then ["--all"] else []);
                inv_dir := repoPath;
                inv_timeout := if pull_Timeout opts <=? 0 then -1
                               else pull_Timeout opts |} in
  Pull repoPath opts w =
    ((sys_exec inv (os w)).2.2,
     {| os := (sys_exec inv (os w)).1; heap := heap w |}, [EvRun inv]).
Proof.
  run_op. destruct opts as [[] t]; simpl; destruct (t <=? 0); simpl;
    destruct (sys_exec _ _) as [s2 [out err]]; reflexivity.
Qed.

Lemma Fetch_unfold (repoPath : string) (opts : FetchRemoteOptions) w :
  let inv := {| inv_args := ["fetch"] ++ (if Prune opts then ["--prune"] else []);
                inv_dir := repoPath;
                inv_timeout := if fetch_Timeout opts <=? 0 then -1
                               else fetch_Timeout opts |} in
  Fetch repoPath opts w =
    ((sys_exec inv (os w)).2.2,
     {| os := (sys_exec inv (os w)).1; heap := heap w |}, [EvRun inv]).
Proof.
  run_op. destruct opts as [[] t]; simpl; destruct (t <=? 0); simpl;
    destruct (sys_exec _ _) as [s2 [out err]]; reflexivity.
Qed.

Lemma OpenRepository_unfold (repoPath : string) w :
  OpenRepository repoPath w =
    match sys_Abs repoPath (os w) with
    | (_, Some e) => (None, Some e, w, [])
    | (a, None) =>
        if sys_isDir a (os w) then
          let cc := fresh (dom (heap w)) in
          let tc := fresh (dom (<[cc := ∅]> (heap w))) in
          (Some {| Path := a; commitCache := cc; tagCache := tc |}, None,
           {| os := os w; heap := <[tc := ∅]> (<[cc := ∅]> (heap w)) |}, [])
        else (None, Some (errors_New "no such file or directory"), w, [])
    end.
Proof.
  unfold OpenRepository, filepath_Abs, isDir, newObjectCache,
    mbind, M_bind, mret, M_ret.
  destruct (sys_Abs _ _) as [a [e|]]; simpl; [done|].
  destruct (sys_isDir _ _); simpl; reflexivity.
Qed.

(** [C2]  A timeout that is zero or negative reaches the subprocess
    runner as the no-timeout value [-1], and the operation then behaves
    exactly as with [Timeout = -1]; a positive timeout reaches the runner
    unchanged.  This holds for [Clone] (which invokes the runner once its
    directory is created), [Pull] and [Fetch]. *)
Theorem C2_timeout_normalised (t : Duration) :
  (t ≤ 0 →
     (∀ (from to : string) (mirror bare quiet : bool) w,
        let opts := {| Mirror := mirror; Bare := bare; Quiet := quiet;
                       Timeout := t |} in
        Clone from to opts w
          = Clone from to (CloneRepoOptions_setTimeout opts (-1)) w ∧
        inv_timeout <$> invocations (events (Clone from to opts w)) =
          match (sys_MkdirAll (path.Dir to) os_ModePerm (os w)).2 with
          | None => [-1]
          | Some _ => []
          end) ∧
     (∀ (repoPath : string) (all : bool) w,
        let opts := {| All := all; pull_Timeout := t |} in
        Pull repoPath opts w
          = Pull repoPath (PullRemoteOptions_setTimeout opts (-1)) w ∧
        inv_timeout <$> invocations (events (Pull repoPath opts w)) = [-1]) ∧
     (∀ (repoPath : string) (prune : bool) w,
        let opts := {| Prune := prune; fetch_Timeout := t |} in
        Fetch repoPath opts w
          = Fetch repoPath (FetchRemoteOptions_setTimeout opts (-1)) w ∧
        inv_timeout <$> invocations (events (Fetch repoPath opts w)) = [-1])) ∧
  (0 < t →
     (∀ (from to : string) (mirror bare quiet : bool) w,
        let opts := {| Mirror := mirror; Bare := bare; Quiet := quiet;
                       Timeout := t |} in
        inv_timeout <$> invocations (events (Clone from to opts w)) =
          match (sys_MkdirAll (path.Dir to) os_ModePerm (os w)).2 with
          | None => [t]
          | Some _ => []
          end) ∧
     (∀ (repoPath : string) (all : bool) w,
        inv_timeout <$> invocations
          (events (Pull repoPath {| All := all; pull_Timeout := t |} w)) = [t]) ∧
     (∀ (repoPath : string) (prune : bool) w,
        inv_timeout <$> invocations
          (events (Fetch repoPath {| Prune := prune; fetch_Timeout := t |} w))
          = [t])).
Proof.
  split; intros Ht.
  - assert ((t <=? 0) = true) as Hle by lia.
    split_and!; intros; subst opts.
    + rewrite !Clone_unfold. simpl. rewrite Hle.
      destruct (sys_MkdirAll _ _ _) as [s1 [e|]]; done.
    + rewrite !Pull_unfold. simpl. by rewrite Hle.
    + rewrite !Fetch_unfold. simpl. by rewrite Hle.
  - assert ((t <=? 0) = false) as Hgt by lia.
    split_and!; intros; try subst opts.
    + rewrite Clone_unfold. simpl. rewrite Hgt.
      destruct (sys_MkdirAll _ _ _) as [s1 [e|]]; done.
    + rewrite Pull_unfold. simpl. by rewrite Hgt.
    + rewrite Fetch_unfold. simpl. by rewrite Hgt.
Qed.

(** [C3], as amended.  [OpenRepository] decides on the absolute form of
    the path.  When [filepath.Abs] fails, that error is returned and no
    handle.  Otherwise, when the absolute form does not exist or is not a
    directory, the error is "no such file or directory" and there is no
    handle; when it is an existing directory, a handle is returned and no
    error. *)
Theorem C3_open_checks_absolute_form (repoPath : string) w :
  match sys_Abs repoPath (os w) with
  | (_, Some e) => OpenRepository repoPath w = (None, Some e, w, [])
  | (a, None) =>
      if sys_isDir a (os w)
      then ∃ repo w',
             OpenRepository repoPath w = (Some repo, None, w', []) ∧
             Path repo = a
      else OpenRepository repoPath w
             = (None, Some (errors_New "no such file or directory"), w, [])
  end.
Proof.
  rewrite OpenRepository_unfold.
  destruct (sys_Abs _ _) as [a [e|]]; [done|].
  destruct (sys_isDir _ _); [|done]. by eexists _, _.
Qed.

(** [C5]  [Clone] first calls [os.MkdirAll] on the parent directory
    [path.Dir(to)] of the target.  If that fails, its error is returned
    and the trace holds that call alone: no subprocess was invoked.  If it
    succeeds, the parent is a directory in the state the subprocess then
    runs in, and the invocation follows the directory creation in the
    trace. *)
Theorem C5_clone_creates_parent_first (from to : string)
    (opts : CloneRepoOptions) w :
  let dir := path.Dir to in
  ∃ s1 err, sys_MkdirAll dir os_ModePerm (os w) = (s1, err) ∧
    match err with
    | Some e =>
        Clone from to opts w
          = (Some e, {| os := s1; heap := heap w |}, [EvMkdirAll dir os_ModePerm])
    | None =>
        sys_isDir dir s1 = true ∧
        ∃ inv,
          events (Clone from to opts w) = [EvMkdirAll dir os_ModePerm; EvRun inv] ∧
          result (Clone from to opts w) = (sys_exec inv s1).2.2 ∧
          os (after (Clone from to opts w)) = (sys_exec inv s1).1
    end.
Proof.
  intros dir. rewrite Clone_unfold. fold dir.
  destruct (sys_MkdirAll dir os_ModePerm (os w)) as [s1 [e|]] eqn:Hmk;
    exists s1; eexists; (split; [reflexivity|]); [done|].
  split; [by eapply sys_MkdirAll_isDir|]. by eexists.
Qed.

(** [C6]  The arguments each operation hands to the runner.  [Clone]:
    "clone", then "--mirror" iff [Mirror], "--bare" iff [Bare], "--quiet"
    iff [Quiet], then the source and the target (one invocation, made
    once the parent directory exists).  [Push]: "push", then "--force" iff
    [Force], then the remote and the branch.  [ResetHEAD]: "reset", then
    "--hard" iff [hard], then the revision. *)
Theorem C6_assembled_arguments :
  (∀ (from to : string) (opts : CloneRepoOptions) w,
     inv_args <$> invocations (events (Clone from to opts w)) =
       match (sys_MkdirAll (path.Dir to) os_ModePerm (os w)).2 with
       | None =>
           [ ["clone"] ++ (if Mirror opts then ["--mirror"] else [])
               ++ (if Bare opts then ["--bare"] else [])
               ++ (if Quiet opts then ["--quiet"] else [])
               ++ [from; to] ]
       | Some _ => []
       end) ∧
  (∀ (repoPath remote branch : string) (opts : PushOptions) w,
     inv_args <$> invocations (events (Push repoPath remote branch opts w)) =
       [ ["push"] ++ (if Force opts then ["--force"] else [])
           ++ [remote; branch] ]) ∧
  (∀ (repoPath : string) (hard : bool) (revision : string) w,
     inv_args <$> invocations (events (ResetHEAD repoPath hard revision w)) =
       [ ["reset"] ++ (if hard then ["--hard"] else []) ++ [revision] ]).
Proof.
  split_and!.
  - intros. rewrite Clone_unfold. simpl.
    destruct (sys_MkdirAll _ _ _) as [s1 [e|]]; done.
  - intros repoPath remote branch [[]] w; run_op;
      destruct (sys_exec _ _) as [s2 [out err]]; reflexivity.
  - intros repoPath [] revision w; run_op;
      destruct (sys_exec _ _) as [s2 [out err]]; reflexivity.
Qed.

(** [C8]  [InitRepository] drops the result of [os.MkdirAll]: whether
    or not the directory could be created, it goes on to run "init" in
    [repoPath], and the error it returns is the one of that run. *)
Theorem C8_init_ignores_mkdir_failure (repoPath : string) (bare : bool) w :
  let inv := {| inv_args := ["init"] ++ (if bare then ["--bare"] else []);
                inv_dir := repoPath; inv_timeout := -1 |} in
  let s1 := (sys_MkdirAll repoPath os_ModePerm (os w)).1 in
  events (InitRepository repoPath bare w)
    = [EvMkdirAll repoPath os_ModePerm; EvRun inv] ∧
  result (InitRepository repoPath bare w) = (sys_exec inv s1).2.2.
Proof.
  run_op. destruct (sys_MkdirAll _ _ _) as [s1 err]; simpl.
  destruct bare; simpl; destruct (sys_exec _ s1) as [s2 [out e]]; done.
Qed.

(** [C10]  When [OpenRepository] succeeds, the [Path] of the handle is
    what [filepath.Abs] returned for the given path, and it is an
    absolute path. *)
Theorem C10_path_is_absolute (repoPath : string) w repo w' (t : list Event) :
  OpenRepository repoPath w = (Some repo, None, w', t) →
  sys_Abs repoPath (os w) = (Path repo, None) ∧ path.IsAbs (Path repo) = true.
Proof.
  rewrite OpenRepository_unfold.
  destruct (sys_Abs repoPath (os w)) as [a [e|]] eqn:Habs; [done|].
  destruct (sys_isDir _ _); [|done].
  intros [= <- _ _]. simpl. split; [done|]. by eapply sys_Abs_IsAbs.
Qed.

End OperationProperties.

(** ** The commit cache *)

Section CacheProperties.

Context `{R : Runtime} {Commit Tag : Type}.

Local Abbreviation World := (World (Commit := Commit) (Tag := Tag)).

Variable commitCommand : string → Command.
Variable parseCommitData : string → option Commit * option error.

Implicit Types (w : World) (repo : Repository) (c : Commit).




End CacheProperties.

(** ** Runs on the simulated runtime *)

Example OpenRepository_repo :
  OpenRepository "repo" Sim.world = (Some Sim.repo, None, Sim.opened, []).
Proof. vm_compute. reflexivity. Qed.

(** [C1]: the second of three lines does not resolve; the commit found
    for the first line is not returned. *)
Lemma C1_witness :
  Sim.log_bad ≠ [] ∧
  ∃ w' t,
    parsePrettyFormatLogToList Sim.GetCommit Sim.repo Sim.log_bad Sim.opened
      = (None, Some Sim.exit_error, w', t).
Proof.
  assert (Sim.log_bad ≠ []) as Hne by discriminate.
  split; [exact Hne|]. eexists _, _.
  eapply (proj1 (C1_failing_line_fails_all Sim.GetCommit Sim.repo
                   Sim.log_bad Sim.opened Hne)
            [list_byte_of_string Sim.id1] [list_byte_of_string Sim.id2]
            (list_byte_of_string "bad")).
  - vm_compute. reflexivity.
  - vm_compute. reflexivity.
  - vm_compute. reflexivity.
Defined.

(** [C9]: two commits that parse, then the same output with a newline
    at its end; the parser goes on to resolve the empty identifier, which
    names no commit. *)
Lemma C9_witness :
  Sim.log_two ≠ [] ∧
  ∃ w' t,
    parsePrettyFormatLogToList Sim.GetCommit Sim.repo
      (Sim.log_two ++ [newline]) Sim.opened
      = (None, Some Sim.exit_error, w', t) ∧
    last (invocations t)
      = Some {| inv_args := ["cat-file"; "-p"; ""];
                inv_dir := "/home/git/repo"; inv_timeout := -1 |}.
Proof.
  assert (Sim.log_two ≠ []) as Hne by discriminate.
  split; [exact Hne|].
  eassert (parsePrettyFormatLogToList Sim.GetCommit Sim.repo Sim.log_two
             Sim.opened = (Some _, None, _, _)) as Hparse
    by (vm_compute; reflexivity).
  eexists _, _. split.
  - rewrite (proj2 (C9_one_attempt_per_segment Sim.repo Sim.log_two
                      Sim.opened Hne) Sim.GetCommit _ _ _ Hparse).
    vm_compute. reflexivity.
  - vm_compute. reflexivity.
Defined.

(** [C2]: a zero timeout and a positive one. *)
Lemma C2_witness :
  inv_timeout <$> invocations (events
    (Pull "/home/git/repo" {| All := true; pull_Timeout := 0 |} Sim.world))
    = [-1] ∧
  inv_timeout <$> invocations (events
    (Fetch "/home/git/repo" {| Prune := false; fetch_Timeout := 30 |} Sim.world))
    = [30].
Proof.
  split.
  - destruct (proj1 (C2_timeout_normalised (Commit := string) (Tag := string) 0))
      as (_ & Hpull & _); [lia|].
    apply (Hpull "/home/git/repo" true Sim.world).
  - destruct (proj2 (C2_timeout_normalised (Commit := string) (Tag := string) 30))
      as (_ & _ & Hfetch); [lia|].
    apply (Hfetch "/home/git/repo" false Sim.world).
Defined.

(** [C3]: the claim as stated fails in both directions.  Where the
    working directory cannot be named, "." is an existing directory and
    yet [OpenRepository "."] returns the error of [filepath.Abs] and no
    handle.  And the empty path, which names nothing, is opened as the
    working directory. *)
Lemma C3_counterexample :
  (sys_isDir "." (os Sim.lost) = true ∧
   OpenRepository "." Sim.lost = (None, Some Sim.getwd_error, Sim.lost, [])) ∧
  (sys_isDir "" (os Sim.world) = false ∧
   ∃ w', OpenRepository "" Sim.world
          = (Some {| Path := "/home/git"; commitCache := 0%nat;
                     tagCache := 1%nat |}, None, w', [])).
Proof.
  split_and!; [reflexivity|reflexivity|reflexivity|].
  eexists. vm_compute. reflexivity.
Qed.

(** [C10]: a relative path is opened under its absolute form. *)
Lemma C10_witness :
  sys_Abs "repo" (os Sim.world) = (Path Sim.repo, None) ∧
  path.IsAbs (Path Sim.repo) = true.
Proof.
  apply (C10_path_is_absolute "repo" Sim.world Sim.repo Sim.opened []).
  vm_compute. reflexivity.
Defined.

(** Cloning below a file: the parent cannot be created and the tool is
    not run.  Cloning below a missing directory: it is created first. *)
Example Clone_below_a_file :
  Clone "src" "/home/git/notes/x/y"
    {| Mirror := false; Bare := true; Quiet := false; Timeout := 0 |} Sim.world
  = (Some Sim.not_a_directory, Sim.world,
     [EvMkdirAll "/home/git/notes/x" os_ModePerm]).
Proof. vm_compute. reflexivity. Qed.

Example Clone_below_a_missing_directory :
  events (Clone "src" "/home/git/new/x/y"
    {| Mirror := true; Bare := false; Quiet := true; Timeout := 5 |} Sim.world)
  = [EvMkdirAll "/home/git/new/x" os_ModePerm;
     EvRun {| inv_args := ["clone"; "--mirror"; "--quiet"; "src";
                           "/home/git/new/x/y"];
              inv_dir := ""; inv_timeout := 5 |}].
Proof. vm_compute. reflexivity. Qed.

(** Initializing at the empty path: the directory cannot be created,
    the tool runs in the current directory and succeeds, and no error is
    returned. *)
Example InitRepository_empty_path :
  (sys_MkdirAll "" os_ModePerm (os Sim.world)).2 = Some Sim.no_such_file ∧
  result (InitRepository "" false Sim.world) = None.
Proof. split; vm_compute; reflexivity. Qed.

(** * Further properties *)

(** ** Cutting the log output *)

Lemma bytes_Split_app (a b : bytes) (sep : byte) :
  bytes_Split (a ++ sep :: b) sep = bytes_Split a sep ++ bytes_Split b sep.
Proof.
  induction a as [|x a IH]; simpl.
  - by rewrite (byte_dec_lb (eq_refl sep)).
  - destruct (Byte.eqb x sep); rewrite IH; [done|].
    pose proof (bytes_Split_not_nil a sep) as Hne.
    destruct (bytes_Split a sep); [done|reflexivity].
Qed.

Lemma bytes_Split_no_sep (s : bytes) (sep : byte) :
  Forall (λ b, b ≠ sep) s → bytes_Split s sep = [s].
Proof.
  induction 1 as [|b s Hb _ IH]; simpl; [done|].
  destruct (Byte.eqb b sep) eqn:Heq.
  - by apply byte_dec_bl in Heq.
  - by rewrite IH.
Qed.

Lemma bytes_Join_cons (p q : bytes) (ps : list bytes) (sep : byte) :
  bytes_Join (p :: q :: ps) sep = p ++ sep :: bytes_Join (q :: ps) sep.
Proof. reflexivity. Qed.

(** The segments the parser works on are the log output cut at its
    newline bytes and nowhere else: joined by the separator they give the
    output back, and none of them contains the separator. *)
Theorem bytes_Split_Join (s : bytes) (sep : byte) :
  bytes_Join (bytes_Split s sep) sep = s ∧
  Forall (Forall (λ b, b ≠ sep)) (bytes_Split s sep).
Proof.
  induction s as [|b s [IHj IHf]]; simpl.
  - split; [done|]. by repeat constructor.
  - pose proof (bytes_Split_not_nil s sep) as Hne.
    destruct (Byte.eqb b sep) eqn:Heq.
    + apply byte_dec_bl in Heq as ->.
      destruct (bytes_Split s sep) as [|p ps] eqn:Hs; [done|].
      rewrite bytes_Join_cons, IHj. split; [done|]. by constructor.
    + apply Byte.eqb_false in Heq.
      destruct (bytes_Split s sep) as [|p ps] eqn:Hs; [done|].
      apply Forall_cons in IHf as [Hp Hps]. split.
      * destruct ps as [|q ps]; simpl in *; by rewrite <- IHj.
      * constructor; [by constructor|done].
Qed.

(** ** More on log parsing *)

Section MoreLogProperties.

Context `{R : Runtime} {Commit Tag : Type}.

Local Abbreviation World := (World (Commit := Commit) (Tag := Tag)).
Local Abbreviation M := (M (Commit := Commit) (Tag := Tag)).

Implicit Types (GetCommit : Repository → string → M (option Commit * option error)).
Implicit Types (repo : Repository) (w : World) (l cs : list (option Commit)).

(** The list the loop starts from only prefixes the outcome. *)
Lemma rangeParts_acc GetCommit repo (ps : list bytes) l w :
  rangeParts GetCommit repo ps l w =
    let '(r, w', t) := rangeParts GetCommit repo ps [] w in
    (match r.1 with Some cs => Some (l ++ cs) | None => None end, r.2, w', t).
Proof.
  revert l w. induction ps as [|p ps IH]; intros l w.
  - simpl. unfold mret, M_ret. simpl. by rewrite app_nil_r.
  - rewrite !rangeParts_cons.
    destruct (GetCommit _ _ _) as [[[c [e|]] w1] t1]; [done|].
    rewrite (IH (l ++ [c])), (IH ([] ++ [c])).
    destruct (rangeParts _ _ ps [] w1) as [[[[cs|] err] w2] t2]; simpl; [|done].
    by rewrite <- app_assoc.
Qed.

Lemma rangeParts_Resolves GetCommit repo (ps : list bytes) l l' w w'
    (t : list Event) :
  rangeParts GetCommit repo ps l w = (Some l', None, w', t) ↔
  ∃ cs, l' = l ++ cs ∧ Resolves GetCommit repo ps w cs w' t.
Proof.
  split.
  - revert l w t. induction ps as [|p ps IH]; intros l w t.
    + simpl. intros [= <- <- <-]. exists []. rewrite app_nil_r.
      split; [done|constructor].
    + rewrite rangeParts_cons.
      destruct (GetCommit _ _ _) as [[[c [e|]] w1] t1] eqn:HG; [done|].
      destruct (rangeParts _ _ ps _ w1) as [[r w2] t2] eqn:Hr.
      intros [= -> -> <-].
      destruct (IH _ _ _ Hr) as (cs & -> & Hres).
      exists (c :: cs). rewrite <- app_assoc. split; [done|].
      by econstructor.
  - intros (cs & -> & Hres). revert l.
    induction Hres as [w|p ps w w1 w2 c cs t1 t2 HG _ IH]; intros l.
    + simpl. by rewrite app_nil_r.
    + rewrite rangeParts_cons, HG, (IH (l ++ [c])), <- app_assoc. done.
Qed.

Lemma Resolves_length GetCommit repo (ps : list bytes) w cs w' (t : list Event) :
  Resolves GetCommit repo ps w cs w' t → length cs = length ps.
Proof. induction 1; simpl; congruence. Qed.

(** The parser returns either a list and a nil error, or a nil list and
    an error: never a list together with an error, never neither. *)
Theorem parse_list_or_error GetCommit repo (logs : bytes) w :
  (∃ cs, result (parsePrettyFormatLogToList GetCommit repo logs w)
           = (Some cs, None)) ∨
  (∃ e, result (parsePrettyFormatLogToList GetCommit repo logs w)
          = (None, Some e)).
Proof.
  destruct logs as [|b logs]; [left; by exists []|].
  rewrite parse_nonempty by done.
  pose proof (rangeParts_outcome GetCommit repo
                (bytes_Split (b :: logs) newline) [] w) as Hout.
  destruct (rangeParts _ _ _ _ _) as [[r w'] t]. unfold result. simpl.
  destruct Hout as [[e ->]|(cs & -> & _)]; eauto.
Qed.

(** A non-empty output parses to [cs] exactly when its segments resolve
    one after the other, each in the world the previous one left, to the
    commits [cs]: the list holds one commit per segment, in the order of
    the lines. *)
Theorem parse_succeeds_iff_all_resolve GetCommit repo (logs : bytes)
    w cs w' (t : list Event) :
  logs ≠ [] →
  parsePrettyFormatLogToList GetCommit repo logs w = (Some cs, None, w', t) ↔
  Resolves GetCommit repo (bytes_Split logs newline) w cs w' t ∧
  length cs = S (bytes_Count logs newline).
Proof.
  intros Hne. rewrite parse_nonempty, rangeParts_Resolves by done. split.
  - intros (cs' & -> & Hres). simpl. split; [done|].
    by rewrite (Resolves_length _ _ _ _ _ _ _ Hres), length_bytes_Split.
  - intros [Hres _]. by exists cs.
Qed.

(** Parsing two non-empty outputs joined by a newline is parsing the
    first and then, in the world this leaves, the second: the lists are
    appended and the calls follow each other.  When the first fails, the
    second is not looked at. *)
Theorem parse_joined_outputs GetCommit repo (a b : bytes) w :
  a ≠ [] → b ≠ [] →
  parsePrettyFormatLogToList GetCommit repo (a ++ newline :: b) w =
    let '(r1, w1, t1) := parsePrettyFormatLogToList GetCommit repo a w in
    match r1 with
    | (Some cs1, None) =>
        let '(r2, w2, t2) := parsePrettyFormatLogToList GetCommit repo b w1 in
        (match r2.1 with Some cs2 => Some (cs1 ++ cs2) | None => None end,
         r2.2, w2, t1 ++ t2)
    | _ => (r1, w1, t1)
    end.
Proof.
  intros Ha Hb.
  rewrite !parse_nonempty by (done || by destruct a).
  rewrite bytes_Split_app, rangeParts_app.
  destruct (rangeParts _ _ (bytes_Split a newline) _ _)
    as [[[[cs1|] [e|]] w1] t1]; try done.
  rewrite (rangeParts_acc _ _ _ cs1), (parse_nonempty _ _ b) by done.
  by destruct (rangeParts _ _ (bytes_Split b newline) [] w1)
    as [[[[cs2|] err] w2] t2].
Qed.

(** A non-empty output without a newline byte is one identifier: the
    parser makes a single call to [GetCommit], on the whole output, and
    returns its commit alone or its error. *)
Theorem parse_single_line GetCommit repo (logs : bytes) w :
  logs ≠ [] → Forall (λ b, b ≠ newline) logs →
  parsePrettyFormatLogToList GetCommit repo logs w =
    let '(c, err, w1, t1) := GetCommit repo (string_of_list_byte logs) w in
    (match err with Some e => (None, Some e) | None => (Some [c], None) end,
     w1, t1).
Proof.
  intros Hne Hnl.
  rewrite parse_nonempty, bytes_Split_no_sep, rangeParts_cons by done.
  destruct (GetCommit _ _ _) as [[[c [e|]] w1] t1]; [done|].
  simpl. by rewrite app_nil_r.
Qed.

Lemma rangeParts_nilCommit repo (ps : list bytes) l w :
  rangeParts nilCommit repo ps l w
    = (Some (l ++ replicate (length ps) None), None, w, []).
Proof.
  revert l. induction ps as [|p ps IH]; intros l.
  - simpl. by rewrite app_nil_r.
  - rewrite rangeParts_cons. unfold nilCommit at 1.
    rewrite IH, <- app_assoc. done.
Qed.

(** The parser does not look at the commit it is given: when
    [GetCommit] answers a nil commit with a nil error, the nil is put in
    the list like any commit, and the parse succeeds with one nil entry
    per segment. *)
Theorem parse_keeps_nil_commits repo (logs : bytes) w :
  logs ≠ [] →
  parsePrettyFormatLogToList nilCommit repo logs w
    = (Some (replicate (S (bytes_Count logs newline)) None), None, w, []).
Proof.
  intros Hne.
  by rewrite parse_nonempty, rangeParts_nilCommit, length_bytes_Split.
Qed.

End MoreLogProperties.

(** ** More on the repository operations *)

Section MoreOperationProperties.

Context `{R : Runtime} {Commit Tag : Type}.

Local Abbreviation World := (World (Commit := Commit) (Tag := Tag)).

Implicit Types (w : World) (repo : Repository).

Ltac run_cmd :=
  unfold RunsOnceIn, InitRepository, Rebase, Push, ResetHEAD, Checkout,
    RunInDir, RunTimeout, RunInDirTimeout, os_MkdirAll, result, after, events,
    mbind, M_bind, mret, M_ret;
  simpl.

(** Running a command and returning the error of the run. *)
Lemma run_and_return (c : Command) (timeout : Duration) (dir : string) w :
  RunsOnceIn dir w (('(_, err) ← RunInDirTimeout c timeout dir; mret err) w).
Proof.
  run_cmd. eexists.
  destruct (sys_exec _ _) as [s [out err]] eqn:Hx; simpl.
  split_and!; try reflexivity; by rewrite Hx.
Qed.

(** [Rebase] names the branch only when one is given: with an empty
    [Branch] the tool is run as a plain "rebase", otherwise the branch
    follows as the only other argument. *)
Theorem Rebase_branch_argument (repoPath : string) (opts : RebaseOptions) w :
  (Branch opts = "" →
     inv_args <$> invocations (events (Rebase repoPath opts w)) = [["rebase"]]) ∧
  (Branch opts ≠ "" →
     inv_args <$> invocations (events (Rebase repoPath opts w))
       = [["rebase"; Branch opts]]).
Proof.
  destruct opts as [b]. simpl. split; intros Hb; run_cmd.
  - subst b. simpl. by destruct (sys_exec _ _) as [s [out err]].
  - apply String.eqb_neq in Hb. rewrite Hb. simpl.
    by destruct (sys_exec _ _) as [s [out err]].
Qed.

(** [Pull] and [Fetch] pass the subcommand and at most one flag:
    "pull" with "--all" iff [All], "fetch" with "--prune" iff [Prune];
    no remote and no branch is ever named. *)
Theorem Pull_Fetch_arguments (repoPath : string) w :
  (∀ opts : PullRemoteOptions,
     inv_args <$> invocations (events (Pull repoPath opts w))
       = [ ["pull"] ++ (if All opts then ["--all"] else []) ]) ∧
  (∀ opts : FetchRemoteOptions,
     inv_args <$> invocations (events (Fetch repoPath opts w))
       = [ ["fetch"] ++ (if Prune opts then ["--prune"] else []) ]).
Proof.
  split; intros opts; [rewrite Pull_unfold|rewrite Fetch_unfold]; done.
Qed.

(** [Pull], [Fetch], [Rebase], [Push], [ResetHEAD] and [Checkout] each
    run the tool exactly once, in [repoPath], create no directory, and
    return the error of that run, nil when it succeeded; they leave the
    object caches as they were. *)
Theorem one_run_and_its_error (repoPath : string) w :
  (∀ opts, RunsOnceIn repoPath w (Pull repoPath opts w)) ∧
  (∀ opts, RunsOnceIn repoPath w (Fetch repoPath opts w)) ∧
  (∀ opts, RunsOnceIn repoPath w (Rebase repoPath opts w)) ∧
  (∀ remote branch opts,
     RunsOnceIn repoPath w (Push repoPath remote branch opts w)) ∧
  (∀ hard revision, RunsOnceIn repoPath w (ResetHEAD repoPath hard revision w)) ∧
  (∀ version, RunsOnceIn repoPath w (Checkout repoPath version w)).
Proof.
  split_and!.
  - intros opts. rewrite Pull_unfold. by eexists.
  - intros opts. rewrite Fetch_unfold. by eexists.
  - intros opts. apply run_and_return.
  - intros remote branch opts. apply run_and_return.
  - intros hard revision. apply run_and_return.
  - intros version. apply run_and_return.
Qed.

(** [InitRepository] and [Clone], the two operations that create
    directories, do not touch the object caches either; and [Clone] runs
    the tool in the current directory of the process, not in the target
    or its parent. *)
Theorem Init_Clone_frame (from to repoPath : string) (bare : bool)
    (opts : CloneRepoOptions) w :
  heap (after (InitRepository repoPath bare w)) = heap w ∧
  heap (after (Clone from to opts w)) = heap w ∧
  Forall (λ inv, inv_dir inv = "") (invocations (events (Clone from to opts w))).
Proof.
  split_and!.
  - run_cmd. destruct (sys_MkdirAll _ _ _) as [s1 e]. simpl.
    by destruct (sys_exec _ _) as [s [out err]].
  - rewrite Clone_unfold. simpl.
    by destruct (sys_MkdirAll _ _ _) as [s1 [e|]].
  - rewrite Clone_unfold. simpl.
    destruct (sys_MkdirAll _ _ _) as [s1 [e|]]; simpl; [constructor|].
    by repeat constructor.
Qed.

(** The cells of a handle that [OpenRepository] returns were not in the
    store before; afterwards they are, and empty. *)
Lemma OpenRepository_new_cells (repoPath : string) w repo w' (t : list Event) :
  OpenRepository repoPath w = (Some repo, None, w', t) →
  (heap w !! commitCache repo = None ∧ heap w !! tagCache repo = None) ∧
  (is_Some (heap w' !! commitCache repo) ∧ is_Some (heap w' !! tagCache repo)) ∧
  commitCache repo ≠ tagCache repo.
Proof.
  rewrite OpenRepository_unfold.
  destruct (sys_Abs _ _) as [a [e|]]; [done|].
  destruct (sys_isDir _ _); [|done].
  intros [= <- <- _]. simpl.
  set (cc := fresh (dom (heap w))).
  set (tc := fresh (dom (<[cc:=∅]> (heap w)))).
  assert (heap w !! cc = None) as Hcc by apply not_elem_of_dom, is_fresh.
  assert (<[cc:=∅]> (heap w) !! tc = None) as Htc
    by apply not_elem_of_dom, is_fresh.
  rewrite lookup_insert in Htc. case_decide as Hne; [done|].
  split_and!; [done|done| | |done].
  - rewrite lookup_insert_ne by done. rewrite lookup_insert_eq. by eexists.
  - rewrite lookup_insert_eq. by eexists.
Qed.

(** [OpenRepository] leaves the cells that were in the store as they
    were. *)
Lemma OpenRepository_keeps_cells (repoPath : string) w (l : loc) :
  is_Some (heap w !! l) →
  heap (after (OpenRepository repoPath w)) !! l = heap w !! l.
Proof.
  intros Hl. rewrite OpenRepository_unfold.
  destruct (sys_Abs _ _) as [a [e|]]; [done|].
  destruct (sys_isDir _ _); [|done]. unfold after. simpl.
  apply elem_of_dom in Hl.
  assert (fresh (dom (heap w)) ≠ l) as Hne1
    by (intros <-; by apply (is_fresh (dom (heap w)))).
  rewrite lookup_insert_ne, lookup_insert_ne; [done|done|].
  set (cc := fresh (dom (heap w))) in *.
  intros <-. apply (is_fresh (dom (<[cc:=∅]> (heap w)))).
  apply elem_of_dom. apply elem_of_dom in Hl.
  rewrite lookup_insert. by case_decide.
Qed.

(** [OpenRepository] only looks: it runs no subprocess and creates no
    directory (so it does not check that the directory holds a
    repository), it leaves the state of the system as it is, and it
    leaves every object cache already in the store untouched.  When it
    fails, the world is exactly as before. *)
Theorem OpenRepository_frame (repoPath : string) w :
  events (OpenRepository repoPath w) = [] ∧
  os (after (OpenRepository repoPath w)) = os w ∧
  (∀ l : loc, is_Some (heap w !! l) →
     heap (after (OpenRepository repoPath w)) !! l = heap w !! l) ∧
  ((result (OpenRepository repoPath w)).1 = None →
     after (OpenRepository repoPath w) = w).
Proof.
  split_and!; [| |apply OpenRepository_keeps_cells|];
    rewrite OpenRepository_unfold;
    destruct (sys_Abs _ _) as [a [e|]]; try done;
    destruct (sys_isDir _ _); done.
Qed.

(** Two handles opened one after the other, on the same path or not,
    share no cache: the four cells are distinct, and opening the second
    handle leaves the caches of the first as they were. *)
Theorem handles_share_no_cache (p q : string) w repo1 w1 (t1 : list Event)
    repo2 w2 (t2 : list Event) :
  OpenRepository p w = (Some repo1, None, w1, t1) →
  OpenRepository q w1 = (Some repo2, None, w2, t2) →
  NoDup [commitCache repo1; tagCache repo1; commitCache repo2; tagCache repo2] ∧
  heap w2 !! commitCache repo1 = heap w1 !! commitCache repo1 ∧
  heap w2 !! tagCache repo1 = heap w1 !! tagCache repo1.
Proof.
  intros H1 H2.
  destruct (OpenRepository_new_cells _ _ _ _ _ H1)
    as ((Hc1 & Ht1) & ([m1 Hc1'] & [m1' Ht1']) & Hne1).
  destruct (OpenRepository_new_cells _ _ _ _ _ H2)
    as ((Hc2 & Ht2) & ([m2 Hc2'] & [m2' Ht2']) & Hne2).
  pose proof (OpenRepository_keeps_cells q w1) as Hk. rewrite H2 in Hk.
  unfold after in Hk. simpl in Hk.
  assert (heap w2 !! commitCache repo1 = heap w1 !! commitCache repo1) as Hkc
    by (apply Hk; by rewrite Hc1').
  assert (heap w2 !! tagCache repo1 = heap w1 !! tagCache repo1) as Hkt
    by (apply Hk; by rewrite Ht1').
  split_and!; [|done|done].
  assert (commitCache repo1 ≠ commitCache repo2) by congruence.
  assert (commitCache repo1 ≠ tagCache repo2) by congruence.
  assert (tagCache repo1 ≠ commitCache repo2) by congruence.
  assert (tagCache repo1 ≠ tagCache repo2) by congruence.
  rewrite !NoDup_cons, !elem_of_cons, !elem_of_nil.
  split_and!; [intuition congruence..|constructor].
Qed.

End MoreOperationProperties.

(** ** Further runs on the simulated runtime *)

Lemma parse_succeeds_iff_all_resolve_witness :
  Sim.log_two ≠ [] ∧
  ∃ w' t,
    Resolves Sim.GetCommit Sim.repo (bytes_Split Sim.log_two newline)
      Sim.opened [Some "tree 1"; Some "tree 2"] w' t.
Proof.
  assert (Sim.log_two ≠ []) as Hne by discriminate.
  split; [exact Hne|].
  eassert (parsePrettyFormatLogToList Sim.GetCommit Sim.repo Sim.log_two
             Sim.opened = (Some _, None, _, _)) as Hparse
    by (vm_compute; reflexivity).
  eexists _, _.
  exact (proj1 (proj1 (parse_succeeds_iff_all_resolve Sim.GetCommit Sim.repo
                         Sim.log_two Sim.opened _ _ _ Hne) Hparse)).
Defined.

Lemma parse_joined_outputs_witness :
  parsePrettyFormatLogToList Sim.GetCommit Sim.repo
    (list_byte_of_string Sim.id1 ++ newline :: list_byte_of_string Sim.id2)
    Sim.opened
  = (Some [Some "tree 1"; Some "tree 2"], None,
     after (Sim.GetCommit Sim.repo Sim.id2
              (after (Sim.GetCommit Sim.repo Sim.id1 Sim.opened))),
     [EvRun {| inv_args := ["cat-file"; "-p"; Sim.id1];
               inv_dir := "/home/git/repo"; inv_timeout := -1 |};
      EvRun {| inv_args := ["cat-file"; "-p"; Sim.id2];
               inv_dir := "/home/git/repo"; inv_timeout := -1 |}]).
Proof.
  rewrite (parse_joined_outputs Sim.GetCommit Sim.repo
             (list_byte_of_string Sim.id1) (list_byte_of_string Sim.id2)
             Sim.opened) by discriminate.
  vm_compute. reflexivity.
Defined.

Lemma parse_single_line_witness :
  parsePrettyFormatLogToList Sim.GetCommit Sim.repo
    (list_byte_of_string "HEAD") Sim.opened
  = (None, Some Sim.exit_error, Sim.opened,
     [EvRun {| inv_args := ["cat-file"; "-p"; "HEAD"];
               inv_dir := "/home/git/repo"; inv_timeout := -1 |}]).
Proof.
  rewrite (parse_single_line Sim.GetCommit Sim.repo
             (list_byte_of_string "HEAD") Sim.opened).
  - vm_compute. reflexivity.
  - discriminate.
  - repeat constructor; discriminate.
Defined.

Lemma parse_keeps_nil_commits_witness :
  parsePrettyFormatLogToList nilCommit Sim.repo Sim.log_two Sim.opened
  = (Some [None; None], None, Sim.opened, []).
Proof.
  rewrite (parse_keeps_nil_commits Sim.repo Sim.log_two Sim.opened)
    by discriminate.
  reflexivity.
Defined.

Lemma Rebase_branch_argument_witness :
  inv_args <$> invocations (events
    (Rebase "/home/git/repo" {| Branch := "" |} Sim.world)) = [["rebase"]] ∧
  inv_args <$> invocations (events
    (Rebase "/home/git/repo" {| Branch := "origin/master" |} Sim.world))
    = [["rebase"; "origin/master"]].
Proof.
  split.
  - by apply (proj1 (Rebase_branch_argument "/home/git/repo"
                       {| Branch := "" |} Sim.world)).
  - by apply (proj2 (Rebase_branch_argument "/home/git/repo"
                       {| Branch := "origin/master" |} Sim.world)).
Defined.

Lemma OpenRepository_frame_witness :
  heap (after (OpenRepository "/home/git" Sim.opened)) !! commitCache Sim.repo
    = heap Sim.opened !! commitCache Sim.repo ∧
  after (OpenRepository "/home/git/notes" Sim.opened) = Sim.opened.
Proof.
  split.
  - apply (proj1 (proj2 (proj2
      (OpenRepository_frame "/home/git" Sim.opened)))).
    vm_compute. eauto.
  - apply (proj2 (proj2 (proj2
      (OpenRepository_frame "/home/git/notes" Sim.opened)))).
    vm_compute. reflexivity.
Defined.

Lemma handles_share_no_cache_witness :
  ∃ repo2 w2,
    OpenRepository "repo" Sim.opened = (Some repo2, None, w2, []) ∧
    Path repo2 = Path Sim.repo ∧
    NoDup [commitCache Sim.repo; tagCache Sim.repo;
           commitCache repo2; tagCache repo2].
Proof.
  eassert (OpenRepository "repo" Sim.opened = (Some _, None, _, [])) as Hopen
    by (vm_compute; reflexivity).
  eexists _, _. split; [exact Hopen|]. split; [reflexivity|].
  exact (proj1 (handles_share_no_cache _ _ _ _ _ _ _ _ _
                  OpenRepository_repo Hopen)).
Defined.

(** ** The commit cache over time *)

Section CacheOverTime.

Context `{R : Runtime} {Commit Tag : Type}.

Local Abbreviation World := (World (Commit := Commit) (Tag := Tag)).

Variable commitCommand : string → Command.
Variable parseCommitData : string → option Commit * option error.

Implicit Types (w : World) (repo : Repository) (c : Commit) (cc : loc).

Local Abbreviation Lookup := (GetCommit commitCommand parseCommitData).








End CacheOverTime.


